(** * hn_summarizer: the article collection lifecycle of [summarize.py]

    A shallow embedding of the pure core of [summarize.py]: the listing
    parser ([return_articles]), the date helper ([get_date]), the
    remove-by-id scan ([remove_article_by_id]), the merge loop of the
    module body and the trimmer ([trim_article_collection]).

    Python lists are [list]s, the [settings] dict is a [gmap] from option
    names to JSON values, Python exceptions are the [Raise] case of
    [result], and the wall clock and the fetched page are explicit inputs.
    What the functions [print] is left out. *)

From stdpp Require Import base option list strings pretty gmap.
From Stdlib Require Import Ascii ZArith Lia.

(** ** Python-level plumbing *)

(** The exceptions the modelled code can raise. *)
Inductive exn : Type :=
  | AttributeError
  | KeyError
  | TypeError
  | IndexError
  | OverflowError.

(** A computation either returns a value or raises. *)
Inductive result (A : Type) : Type :=
  | Ok (a : A)
  | Raise (e : exn).
Arguments Ok {A} a.
Arguments Raise {A} e.

(** Sequencing: an exception raised by [m] propagates.  With this instance
    the notation [x ← m; k] reads as Python's statement sequence. *)
Global Instance result_bind : MBind result := λ A B k m,
  match m with
  | Ok a => k a
  | Raise e => Raise e
  end.

(** [o.attr] / [o[key]] on the result of a lookup that may have found
    nothing: [None] raises [e]. *)
Definition require {A : Type} (e : exn) (o : option A) : result A :=
  match o with
  | Some a => Ok a
  | None => Raise e
  end.

(** ** Article records *)

(** Modelled from the spec: the [Article] class lives in [article.py],
    outside [summarize.py].  The attributes are the ones of the spec's
    data model (section 3), which are also the ones [log] reads; [rank]
    and [score] are integers there.  [article_id] is the [id] attribute of
    a listing row, a string, and is compared with Python's [==]. *)
Record Article : Type := mkArticle {
  rank : Z;
  title : string;
  article_link : string;
  comment_link : string;
  article_id : string;
  score : Z;
  user : string;
  datestring : string;
  generated_article_summary : string;
  generated_comment_summary : string;
}.

(** The ids of a collection, in collection order. *)
Definition ids (collection : list Article) : list string :=
  article_id <$> collection.

(** ** The collection operations *)

(** [remove_article_by_id], lines 102-129: [enumerate] walks the collection
    with a running [index]; at the first record whose id matches, the
    element at that index is deleted from the collection and [True] is
    returned; when the walk ends, the collection is untouched and the
    answer is [False].  [rest] is the part of the collection not visited
    yet.  The pair is the collection after the call and the returned bool. *)
Fixpoint remove_scan (index : nat) (rest : list Article)
    (article_collection : list Article) (id : string)
    : list Article * bool :=
  match rest with
  | [] => (article_collection, false)
  | article :: rest' =>
      if bool_decide (article_id article = id)
      then (delete index article_collection, true)
      else remove_scan (S index) rest' article_collection id
  end.

Definition remove_article_by_id (article_collection : list Article)
    (id : string) : list Article * bool :=
  remove_scan 0 article_collection article_collection id.

(** One round of the merge loop, lines 207-208: the removal (its boolean
    is dropped, the call is a statement) followed by [append]. *)
Definition merge_step (articles : list Article) (article : Article)
    : list Article :=
  (remove_article_by_id articles article.(article_id)).1 ++ [article].

(** The merge loop, lines 206-208: [for article in articles_to_load]. *)
Definition merge (articles articles_to_load : list Article) : list Article :=
  foldl merge_step articles articles_to_load.

(** [trim_article_collection], lines 131-146: [while len(articles) >
    max_size: articles.pop(0)].  Every iteration drops the head, so the
    recursion is on the list; [pop(0)] on an empty list (reachable only
    with a negative [max_size]) raises [IndexError]. *)
Fixpoint trim_article_collection (articles : list Article) (max_size : Z)
    : result (list Article) :=
  if bool_decide (Z.of_nat (length articles) > max_size)%Z then
    match articles with
    | [] => Raise IndexError
    | _ :: articles' => trim_article_collection articles' max_size
    end
  else Ok articles.

(** ** The listing parser *)

(** *** String helpers used on the scraped text *)

(** The ASCII characters [str.strip()] removes when called without
    argument. *)
Definition is_space (c : ascii) : bool :=
  let n := nat_of_ascii c in
  ((9 <=? n)%nat && (n <=? 13)%nat) || ((28 <=? n)%nat && (n <=? 32)%nat).

Fixpoint lstrip (s : string) : string :=
  match s with
  | EmptyString => EmptyString
  | String c s' => if is_space c then lstrip s' else s
  end.

Fixpoint rstrip (s : string) : string :=
  match s with
  | EmptyString => EmptyString
  | String c s' =>
      match rstrip s' with
      | EmptyString => if is_space c then EmptyString else String c EmptyString
      | r => String c r
      end
  end.

(** [s.strip()] *)
Definition strip (s : string) : string := rstrip (lstrip s).

(** [s.replace(".", "")] *)
Fixpoint remove_dots (s : string) : string :=
  match s with
  | EmptyString => EmptyString
  | String c s' =>
      if bool_decide (c = "."%char) then remove_dots s'
      else String c (remove_dots s')
  end.

(** [s.split(" ")[0]]: the text before the first blank. *)
Fixpoint before_blank (s : string) : string :=
  match s with
  | EmptyString => EmptyString
  | String c s' =>
      if bool_decide (c = " "%char) then EmptyString
      else String c (before_blank s')
  end.

(** *** What the parser reads from a listing row

    A row is described by the answers to the queries the parser makes on it;
    [None] is a [find] that matched nothing or an attribute that is not
    there. *)

(** The first [<a>] of the [titleline] span: its text and its [href]. *)
Record Anchor : Type := mkAnchor {
  a_text : string;
  a_href : option string;
}.

(** The [<tr>] after an [athing] row: the text of [span.score], the text of
    [a.hnuser], and for [span.age] whether it exists and its [title]. *)
Record Subline : Type := mkSubline {
  score_span : option string;
  hnuser_a : option string;
  age_span : option (option string);
}.

(** A [<tr class="athing">]: its [id] attribute, the text of [span.rank],
    [span.titleline] (if any) with its first [<a>] (if any), and
    [next_sibling]. *)
Record Row : Type := mkRow {
  row_id : option string;
  rank_span : option string;
  titleline : option (option Anchor);
  next_sibling : option Subline;
}.

Section listing_parser.

(** The constructor [Article(rank, title, article_link, score, user,
    article_id, datestring, generate_summaries)] of [article.py]: it builds
    the record and, when asked, the summaries.  It belongs to [article.py]
    and is taken as given. *)
Variable new_Article :
  string → string → string → string → string → string → string → bool →
  Article.

(** Lines 55-69: the fields of one row, in the order the source reads
    them, then the construction of the record. *)
Definition parse_row (row : Row) (generate_summaries : bool)
    : result Article :=
  rank_text ← require AttributeError row.(rank_span);
  let rank := remove_dots (strip rank_text) in
  span ← require AttributeError row.(titleline);
  a ← require AttributeError span;
  let title := strip a.(a_text) in
  article_link ← require KeyError a.(a_href);
  article_id ← require KeyError row.(row_id);
  sub ← require AttributeError row.(next_sibling);
  score_text ← require AttributeError sub.(score_span);
  let score := strip score_text in
  user_text ← require AttributeError sub.(hnuser_a);
  let user := strip user_text in
  age ← require TypeError sub.(age_span);
  age_title ← require KeyError age;
  let datestring := before_blank age_title in
  Ok (new_Article rank title article_link score user article_id datestring
        generate_summaries).

(** Lines 53-82: the loop over the rows, with the list built so far and
    the counter.  The record is appended and counted before the counter is
    compared with [max_articles]. *)
Fixpoint listing_loop (athing_rows : list Row) (generate_summaries : bool)
    (max_articles : Z) (articles : list Article) (article_count : Z)
    : result (list Article) :=
  match athing_rows with
  | [] => Ok articles
  | row :: athing_rows' =>
      article ← parse_row row generate_summaries;
      let articles := articles ++ [article] in
      let article_count := (article_count + 1)%Z in
      if bool_decide (article_count >= max_articles)%Z then Ok articles
      else listing_loop athing_rows' generate_summaries max_articles
             articles article_count
  end.

(** [return_articles], lines 31-84, from the rows [find_all] returned on
    the fetched page (in document order). *)
Definition return_articles (athing_rows : list Row)
    (generate_summaries : bool) (max_articles : Z) : result (list Article) :=
  listing_loop athing_rows generate_summaries max_articles [] 0%Z.

End listing_parser.

(** ** Date resolution *)

(** The values [json.load] puts in the [settings] dict (numbers without a
    fraction; no option read here is a float). *)
#[local] Set Warnings "-register-all".
Inductive json : Type :=
  | JNull
  | JBool (b : bool)
  | JInt (n : Z)
  | JStr (s : string)
  | JList (l : list json)
  | JDict (d : list (string * json)).

(** Python truthiness of such a value (the middle operand of the [and]
    at line 97). *)
Definition truthy (v : json) : bool :=
  match v with
  | JNull => false
  | JBool b => b
  | JInt n => negb (n =? 0)%Z
  | JStr s => negb (String.eqb s "")
  | JList l => negb (bool_decide (l = []))
  | JDict d => negb (bool_decide (d = []))
  end.

(** [v != ""] *)
Definition not_empty_str (v : json) : bool :=
  match v with
  | JStr s => negb (String.eqb s "")
  | _ => true
  end.

(** A naive [datetime], as [datetime.now()] returns it. *)
Record datetime : Type := mkDatetime {
  year : Z;
  month : Z;
  day : Z;
  hour : Z;
  minute : Z;
  second : Z;
  microsecond : Z;
}.

Definition is_leap (y : Z) : bool :=
  ((y mod 4 =? 0) && (negb (y mod 100 =? 0) || (y mod 400 =? 0)))%Z.

Definition days_in_month (y m : Z) : Z :=
  if (m =? 2)%Z then (if is_leap y then 29 else 28)%Z
  else if ((m =? 4) || (m =? 6) || (m =? 9) || (m =? 11))%Z then 30%Z
  else 31%Z.

(** A date of the proleptic Gregorian calendar in the range of [datetime]
    ([MINYEAR = 1], [MAXYEAR = 9999]). *)
Definition valid_date (d : datetime) : Prop :=
  (1 ≤ d.(year) ≤ 9999 ∧ 1 ≤ d.(month) ≤ 12 ∧
   1 ≤ d.(day) ≤ days_in_month d.(year) d.(month))%Z.

(** [d - timedelta(1)]: the same time of day on the previous calendar
    day; stepping below year 1 raises [OverflowError]. *)
Definition minus_one_day (d : datetime) : result datetime :=
  if (1 <? d.(day))%Z then
    Ok (mkDatetime d.(year) d.(month) (d.(day) - 1)
          d.(hour) d.(minute) d.(second) d.(microsecond))
  else if (1 <? d.(month))%Z then
    Ok (mkDatetime d.(year) (d.(month) - 1)
          (days_in_month d.(year) (d.(month) - 1))
          d.(hour) d.(minute) d.(second) d.(microsecond))
  else if (1 <? d.(year))%Z then
    Ok (mkDatetime (d.(year) - 1) 12 31
          d.(hour) d.(minute) d.(second) d.(microsecond))
  else Raise OverflowError.

(** The decimal digit [n mod 10] as a character. *)
Definition digit (n : Z) : ascii :=
  ascii_of_nat (48 + Z.to_nat (n mod 10)).

(** [strftime("%Y-%m-%d")]: the year on four digits, month and day on
    two.  (Below the year 1000 the C library decides whether [%Y] pads;
    the statements about the format are for later years.) *)
Definition strftime_Ymd (d : datetime) : string :=
  String (digit (d.(year) / 1000)) (String (digit (d.(year) / 100))
  (String (digit (d.(year) / 10)) (String (digit d.(year))
  (String "-"%char
  (String (digit (d.(month) / 10)) (String (digit d.(month))
  (String "-"%char
  (String (digit (d.(day) / 10)) (String (digit d.(day))
   EmptyString))))))))).

(** [get_date], lines 86-100, from the [settings] dict and the reading
    [now] of the clock.  The override is returned as it is stored. *)
Definition get_date (settings : gmap string json) (now : datetime)
    : result json :=
  match settings !! "override_date" with
  | Some v =>
      if truthy v && not_empty_str v then Ok v
      else yesterday ← minus_one_day now; Ok (JStr (strftime_Ymd yesterday))
  | None => yesterday ← minus_one_day now; Ok (JStr (strftime_Ymd yesterday))
  end.

(** [toordinal()]: the day number of a date, 0001-01-01 being day 1. *)
Definition days_before_year (y : Z) : Z :=
  let y' := (y - 1)%Z in
  (y' * 365 + y' / 4 - y' / 100 + y' / 400)%Z.

Definition days_before_month (y m : Z) : Z :=
  foldr Z.add 0%Z
    ((λ k, days_in_month y (Z.of_nat k)) <$> seq 1 (Z.to_nat m - 1)).

Definition toordinal (d : datetime) : Z :=
  (days_before_year d.(year) + days_before_month d.(year) d.(month)
   + d.(day))%Z.

(** Reading a two-digit and a four-digit field back, and with them a
    [YYYY-MM-DD] string: the year, the month and the day it denotes. *)
Definition digit_value (c : ascii) : option Z :=
  let n := nat_of_ascii c in
  if ((48 <=? n)%nat && (n <=? 57)%nat) then Some (Z.of_nat n - 48)%Z
  else None.

Definition read_Ymd (s : string) : option (Z * Z * Z) :=
  match s with
  | String y1 (String y2 (String y3 (String y4 (String "-"
    (String m1 (String m2 (String "-"
    (String d1 (String d2 EmptyString))))))))) =>
      y1 ← digit_value y1; y2 ← digit_value y2;
      y3 ← digit_value y3; y4 ← digit_value y4;
      m1 ← digit_value m1; m2 ← digit_value m2;
      d1 ← digit_value d1; d2 ← digit_value d2;
      Some (1000 * y1 + 100 * y2 + 10 * y3 + y4, 10 * m1 + m2,
            10 * d1 + d2)%Z
  | _ => None
  end.

(** ** The text logger *)


Section text_logger.

(** [str(article)], the [__str__] of [article.py]. *)
Variable str_Article : Article → string.

(** Whether [datetime.strptime(s, "%Y-%m-%dT%H:%M:%S")] returns (it raises
    [ValueError] otherwise). *)
Variable strptime_ok : string → bool.










End text_logger.

(** ** Vocabulary of the statements *)

(** The records of a collection that carry a given id, in order, and how
    many there are. *)
Definition with_id (id : string) (collection : list Article) : list Article :=
  filter (λ a, article_id a = id) collection.

Definition count_id (id : string) (collection : list Article) : nat :=
  length (with_id id collection).

(** The records of [collection] whose id does not occur in [batch]. *)
Definition untouched (collection batch : list Article) : list Article :=
  filter (λ a, article_id a ∉ ids batch) collection.

(** A batch without the records that a later record of the batch
    supersedes: of each id, the last occurrence stays. *)
Fixpoint keep_last (batch : list Article) : list Article :=
  match batch with
  | [] => []
  | r :: batch' =>
      if bool_decide (article_id r ∈ ids batch') then keep_last batch'
      else r :: keep_last batch'
  end.

(** Removal of the first record with a given id, by recursion on the
    collection: what the scan of [remove_article_by_id] amounts to. *)
Fixpoint remove_first (id : string) (collection : list Article)
    : list Article :=
  match collection with
  | [] => []
  | a :: collection' =>
      if bool_decide (article_id a = id) then collection'
      else a :: remove_first id collection'
  end.

(** ** Sample data for the worked instances *)

(** A record with the given id and score; the other fields are fixed. *)
Definition sample_article (id : string) (score : Z) : Article :=
  {| rank := 1; title := "Show HN: a feed of summaries";
     article_link := "https://example.com/post";
     comment_link := "https://news.ycombinator.com/item?id=" +:+ id;
     article_id := id; score := score; user := "pg";
     datestring := "2024-01-15T08:00:00";
     generated_article_summary := ""; generated_comment_summary := "" |}.

(** The collection of the trim scenario of the spec: ids 1, 2, 3. *)
Definition three_articles : list Article :=
  [sample_article "1" 5; sample_article "2" 7; sample_article "3" 2].

(** A stored collection that holds the id 1 twice. *)
Definition twice_stored : list Article :=
  [sample_article "1" 5; sample_article "1" 6].

(** A well-formed listing row with the given id, and the [<tr>] under it. *)
Definition listing_row (id : string) : Row :=
  {| row_id := Some id;
     rank_span := Some "1.";
     titleline :=
       Some (Some {| a_text := " Show HN: a feed of summaries ";
                     a_href := Some "https://example.com/post" |});
     next_sibling :=
       Some {| score_span := Some "120 points";
               hnuser_a := Some "pg";
               age_span := Some (Some "2024-01-15T08:00:00 1705305600") |} |}.

(** Settings without and with an override date, and with an empty one. *)
Definition plain_settings : gmap string json :=
  {[ "articles_url" := JStr "https://news.ycombinator.com/front?day=";
     "max_articles" := JInt 30;
     "max_items_to_keep" := JInt 100 ]}.

Definition override_settings : gmap string json :=
  <["override_date" := JStr "2024-01-15"]> plain_settings.

Definition empty_override_settings : gmap string json :=
  <["override_date" := JStr ""]> plain_settings.

(** Settings whose override date is JSON's [null]. *)
Definition null_override_settings : gmap string json :=
  <["override_date" := JNull]> plain_settings.

(** A reading of the clock on the first of March of a leap year. *)
Definition first_of_march : datetime := mkDatetime 2024 3 1 9 30 0 0.

(** A row of a job advertisement: the line under it has no score and no
    author. *)
Definition job_row (id : string) : Row :=
  {| row_id := Some id;
     rank_span := Some "7.";
     titleline :=
       Some (Some {| a_text := "Example Co is hiring";
                     a_href := Some "https://example.com/jobs" |});
     next_sibling :=
       Some {| score_span := None;
               hnuser_a := None;
               age_span := Some (Some "2024-01-15T09:00:00 1705309200") |} |}.

(** A constructor for the worked instances: it stores the texts it is
    given and leaves the numbers and the summaries empty. *)
Definition plain_Article (rank title article_link score user article_id
    datestring : string) (generate_summaries : bool) : Article :=
  {| rank := 0; title := title; article_link := article_link;
     comment_link := "https://news.ycombinator.com/item?id=" +:+ article_id;
     article_id := article_id; score := 0; user := user;
     datestring := datestring;
     generated_article_summary := ""; generated_comment_summary := "" |}.





(** ** The remove-by-id scan *)

Lemma remove_scan_app (pre rest : list Article) (id : string) :
  remove_scan (length pre) rest (pre ++ rest) id
  = (pre ++ remove_first id rest, bool_decide (id ∈ ids rest)).
Proof.
  revert pre. induction rest as [|a rest IH]; intros pre; simpl.
  - done.
  - destruct (decide (article_id a = id)) as [Ha|Ha].
    + rewrite !(bool_decide_eq_true_2 (article_id a = id)) by done.
      rewrite delete_middle. f_equal.
      symmetry. apply bool_decide_eq_true. rewrite Ha. left.
    + rewrite !(bool_decide_eq_false_2 (article_id a = id)) by done.
      specialize (IH (pre ++ [a])).
      rewrite length_app, Nat.add_1_r in IH. simpl in IH.
      rewrite <- !(assoc_L (++)) in IH. simpl in IH. rewrite IH.
      f_equal. apply bool_decide_ext. rewrite elem_of_cons.
      split; [by right | intros [?|?]; [congruence|done]].
Qed.

Lemma remove_article_by_id_eq (collection : list Article) (id : string) :
  remove_article_by_id collection id
  = (remove_first id collection, bool_decide (id ∈ ids collection)).
Proof. apply (remove_scan_app [] collection id). Qed.

Lemma merge_step_eq (articles : list Article) (article : Article) :
  merge_step articles article
  = remove_first (article_id article) articles ++ [article].
Proof. unfold merge_step. by rewrite remove_article_by_id_eq. Qed.

Lemma merge_nil (articles : list Article) : merge articles [] = articles.
Proof. done. Qed.

Lemma merge_cons (articles : list Article) (r : Article)
    (batch : list Article) :
  merge articles (r :: batch) = merge (merge_step articles r) batch.
Proof. done. Qed.

Lemma merge_snoc (articles batch : list Article) (r : Article) :
  merge articles (batch ++ [r]) = merge_step (merge articles batch) r.
Proof. unfold merge. by rewrite foldl_snoc. Qed.

Lemma filter_all {A : Type} (P : A → Prop) `{!∀ x, Decision (P x)}
    (l : list A) :
  (∀ x, x ∈ l → P x) → filter P l = l.
Proof.
  induction l as [|x l IH]; intros HP; [done|].
  rewrite filter_cons_True by (apply HP; left).
  f_equal. apply IH. intros y Hy. apply HP. by right.
Qed.

Lemma ids_cons (a : Article) (l : list Article) :
  ids (a :: l) = article_id a :: ids l.
Proof. done. Qed.

Lemma ids_app (l k : list Article) : ids (l ++ k) = ids l ++ ids k.
Proof. apply fmap_app. Qed.

(** *** The records of one id, followed through the operations *)

Lemma with_id_cons_eq (id : string) (a : Article) (l : list Article) :
  article_id a = id → with_id id (a :: l) = a :: with_id id l.
Proof. intros. unfold with_id. by rewrite filter_cons_True. Qed.

Lemma with_id_cons_ne (id : string) (a : Article) (l : list Article) :
  article_id a ≠ id → with_id id (a :: l) = with_id id l.
Proof. intros. unfold with_id. by rewrite filter_cons_False. Qed.

Lemma with_id_app (id : string) (l k : list Article) :
  with_id id (l ++ k) = with_id id l ++ with_id id k.
Proof. apply filter_app. Qed.

Lemma with_id_nil_iff (id : string) (l : list Article) :
  with_id id l = [] ↔ id ∉ ids l.
Proof.
  induction l as [|a l IH].
  - split; [intros _; apply not_elem_of_nil | done].
  - rewrite ids_cons, not_elem_of_cons.
    destruct (decide (article_id a = id)) as [Ha|Ha].
    + rewrite with_id_cons_eq by done. split; [done | intros [? _]; congruence].
    + rewrite with_id_cons_ne by done. rewrite IH.
      split; [intros ?; split; [congruence|done] | by intros [_ ?]].
Qed.

Lemma count_id_pos (id : string) (l : list Article) :
  0 < count_id id l ↔ id ∈ ids l.
Proof.
  unfold count_id. destruct (decide (id ∈ ids l)) as [Hin|Hin].
  - split; [done|intros _].
    destruct (with_id id l) eqn:E; simpl; [|lia].
    apply with_id_nil_iff in E. done.
  - apply with_id_nil_iff in Hin as E. rewrite E. simpl. split; [lia|done].
Qed.

(** Removing the first record of id [id'] drops the head of the records of
    that id and leaves the records of any other id alone. *)
Lemma with_id_remove_first (id id' : string) (l : list Article) :
  with_id id (remove_first id' l)
  = if decide (id' = id) then tail (with_id id l) else with_id id l.
Proof.
  induction l as [|a l IH]; simpl.
  - by destruct (decide (id' = id)).
  - destruct (decide (article_id a = id')) as [Ha|Ha].
    + rewrite bool_decide_eq_true_2 by done.
      destruct (decide (id' = id)) as [->|Hne].
      * by rewrite with_id_cons_eq.
      * rewrite with_id_cons_ne by congruence. done.
    + rewrite bool_decide_eq_false_2 by done.
      destruct (decide (article_id a = id)) as [Hb|Hb].
      * rewrite !with_id_cons_eq by done. rewrite IH.
        destruct (decide (id' = id)); [congruence|done].
      * rewrite !with_id_cons_ne by done. apply IH.
Qed.

Lemma with_id_merge_step (id : string) (l : list Article) (r : Article) :
  with_id id (merge_step l r)
  = if decide (article_id r = id) then tail (with_id id l) ++ [r]
    else with_id id l.
Proof.
  rewrite merge_step_eq, with_id_app, with_id_remove_first.
  destruct (decide (article_id r = id)) as [Hr|Hr].
  - by rewrite with_id_cons_eq.
  - rewrite with_id_cons_ne by done. apply app_nil_r.
Qed.

Lemma count_id_merge_step (id : string) (l : list Article) (r : Article) :
  count_id id (merge_step l r)
  = if decide (article_id r = id) then Nat.max 1 (count_id id l)
    else count_id id l.
Proof.
  unfold count_id. rewrite with_id_merge_step.
  destruct (decide (article_id r = id)); [|done].
  rewrite length_app. destruct (with_id id l); simpl; lia.
Qed.

(** The number of records of an id after the merge loop: an id of the
    batch ends with as many records as it had, and with one if it had
    none. *)
Lemma count_id_merge (id : string) (articles batch : list Article) :
  count_id id (merge articles batch)
  = if decide (id ∈ ids batch) then Nat.max 1 (count_id id articles)
    else count_id id articles.
Proof.
  revert articles. induction batch as [|r batch IH]; intros articles.
  - rewrite merge_nil. destruct (decide (id ∈ ids [])) as [Hin|]; [|done].
    by apply elem_of_nil in Hin.
  - rewrite merge_cons, IH, count_id_merge_step, ids_cons.
    destruct (decide (id ∈ ids batch)) as [Hin|Hin];
      destruct (decide (article_id r = id)) as [Hr|Hr];
      destruct (decide (id ∈ article_id r :: ids batch)) as [Hc|Hc];
      try lia; try done.
    + exfalso. apply Hc. by right.
    + exfalso. apply Hc. by right.
    + exfalso. apply Hc. rewrite Hr. left.
    + exfalso. apply elem_of_cons in Hc as [?|?]; [congruence|done].
Qed.

Lemma count_id_cons (id : string) (a : Article) (l : list Article) :
  count_id id (a :: l)
  = if decide (article_id a = id) then S (count_id id l) else count_id id l.
Proof.
  unfold count_id. destruct (decide (article_id a = id)).
  - by rewrite with_id_cons_eq.
  - by rewrite with_id_cons_ne.
Qed.

(** Pairwise distinct ids, said with the counts. *)
Lemma NoDup_ids_count (l : list Article) :
  NoDup (ids l) ↔ ∀ id, count_id id l ≤ 1.
Proof.
  induction l as [|a l IH].
  - split; [intros _ id; unfold count_id, with_id; simpl; lia
           | intros _; constructor].
  - rewrite ids_cons, NoDup_cons, IH. split.
    + intros [Hnotin Hle] id. rewrite count_id_cons.
      destruct (decide (article_id a = id)) as [<-|]; [|apply Hle].
      destruct (decide (0 < count_id (article_id a) l)) as [Hpos|]; [|lia].
      by apply count_id_pos in Hpos.
    + intros Hle. split.
      * intros Hin. apply count_id_pos in Hin.
        specialize (Hle (article_id a)). rewrite count_id_cons in Hle.
        destruct (decide (article_id a = article_id a)); [lia|done].
      * intros id. specialize (Hle id). rewrite count_id_cons in Hle.
        destruct (decide (article_id a = id)); lia.
Qed.

Lemma NoDup_ids_merge (articles batch : list Article) :
  NoDup (ids articles) → NoDup (ids (merge articles batch)).
Proof.
  rewrite !NoDup_ids_count. intros Hle id. rewrite count_id_merge.
  specialize (Hle id). destruct (decide (id ∈ ids batch)); lia.
Qed.

(** *** The closed form of the merge loop on a collection of distinct ids *)

Lemma remove_first_absent (id : string) (l : list Article) :
  id ∉ ids l → remove_first id l = l.
Proof.
  induction l as [|a l IH]; [done|].
  rewrite ids_cons, not_elem_of_cons. intros [Hne Hnotin]. simpl.
  rewrite bool_decide_eq_false_2 by congruence. by rewrite IH.
Qed.

Lemma remove_first_NoDup (id : string) (l : list Article) :
  NoDup (ids l) → remove_first id l = filter (λ a, article_id a ≠ id) l.
Proof.
  induction l as [|a l IH]; [done|].
  rewrite ids_cons, NoDup_cons. intros [Hnotin Hnd]. simpl.
  destruct (decide (article_id a = id)) as [Ha|Ha].
  - rewrite bool_decide_eq_true_2 by done.
    rewrite filter_cons_False by (intros ?; done).
    rewrite <- IH by done. symmetry. apply remove_first_absent. by rewrite <- Ha.
  - rewrite bool_decide_eq_false_2 by done.
    rewrite filter_cons_True by done. by rewrite IH.
Qed.

Lemma untouched_remove (r : Article) (l batch : list Article) :
  untouched (filter (λ a, article_id a ≠ article_id r) l) batch
  = untouched l (r :: batch).
Proof.
  unfold untouched. rewrite list_filter_filter. apply list_filter_iff.
  intros a. rewrite ids_cons, not_elem_of_cons. split; intros [? ?]; done.
Qed.

Lemma untouched_snoc (l batch : list Article) (r : Article) :
  untouched (l ++ [r]) batch
  = untouched l batch
    ++ (if bool_decide (article_id r ∈ ids batch) then [] else [r]).
Proof.
  unfold untouched. rewrite filter_app. f_equal.
  case_bool_decide.
  - by rewrite filter_cons_False by (intros ?; done).
  - by rewrite filter_cons_True by done.
Qed.

Lemma merge_closed_form (articles batch : list Article) :
  NoDup (ids articles) →
  merge articles batch = untouched articles batch ++ keep_last batch.
Proof.
  revert articles. induction batch as [|r batch IH]; intros articles Hnd.
  - rewrite merge_nil. simpl. rewrite app_nil_r. unfold untouched.
    symmetry. apply filter_all. intros a _. apply not_elem_of_nil.
  - rewrite merge_cons, IH by (apply (NoDup_ids_merge articles [r] Hnd)).
    rewrite merge_step_eq, remove_first_NoDup by done.
    rewrite untouched_snoc, untouched_remove, <- (assoc_L (++)). f_equal.
    simpl. by case_bool_decide.
Qed.

Lemma keep_last_subseteq (batch : list Article) : keep_last batch ⊆ batch.
Proof.
  induction batch as [|r batch IH]; [done|]. simpl.
  case_bool_decide; intros a Ha.
  - right. by apply IH.
  - apply elem_of_cons in Ha as [->|Ha]; [left | right; by apply IH].
Qed.

Lemma keep_last_sublist (batch : list Article) :
  keep_last batch `sublist_of` batch.
Proof.
  induction batch as [|r batch IH]; [done|]. simpl.
  case_bool_decide; by constructor.
Qed.

Lemma keep_last_NoDup (batch : list Article) :
  NoDup (ids batch) → keep_last batch = batch.
Proof.
  induction batch as [|r batch IH]; [done|].
  rewrite ids_cons, NoDup_cons. intros [Hnotin Hnd]. simpl.
  rewrite bool_decide_eq_false_2 by done. by rewrite IH.
Qed.

(** Every id of the batch is still present after the superseded records
    are dropped. *)
Lemma ids_keep_last (batch : list Article) (id : string) :
  id ∈ ids (keep_last batch) ↔ id ∈ ids batch.
Proof.
  induction batch as [|r batch IH]; [done|]. cbn [keep_last].
  case_bool_decide as Hr; rewrite ?ids_cons, ?elem_of_cons, IH.
  - split; [by right | intros [->|?]; done].
  - done.
Qed.

(** *** The record an id ends with *)

Lemma with_id_merge (id : string) (articles batch : list Article) :
  count_id id articles ≤ 1 →
  with_id id (merge articles batch)
  = match last (with_id id batch) with
    | Some r => [r]
    | None => with_id id articles
    end.
Proof.
  revert articles. induction batch as [|r batch IH]; intros articles Hle.
  - done.
  - rewrite merge_cons, IH; last first.
    { rewrite count_id_merge_step. destruct (decide (article_id r = id)); lia. }
    rewrite with_id_merge_step.
    destruct (decide (article_id r = id)) as [Hr|Hr].
    + rewrite (with_id_cons_eq id r batch Hr), last_cons.
      destruct (last (with_id id batch)); [done|].
      unfold count_id in Hle. destruct (with_id id articles) as [|? [|? ?]];
        simpl in *; [done|done|lia].
    + by rewrite (with_id_cons_ne id r batch Hr).
Qed.

Lemma last_merge (articles batch : list Article) (r : Article) :
  last batch = Some r → last (merge articles batch) = Some r.
Proof.
  destruct batch as [|r' batch _] using rev_ind; [done|].
  rewrite last_snoc, merge_snoc, merge_step_eq. intros [= ->].
  apply last_snoc.
Qed.

(** *** Length after a refetch of known ids *)

Lemma length_remove_first (id : string) (l : list Article) :
  id ∈ ids l → S (length (remove_first id l)) = length l.
Proof.
  induction l as [|a l IH]; [by intros ?%elem_of_nil|].
  rewrite ids_cons, elem_of_cons. intros Hin. simpl.
  case_bool_decide as Ha; [done|]. simpl. f_equal. apply IH.
  destruct Hin as [?|?]; [congruence|done].
Qed.

Lemma elem_of_ids_merge_step (id : string) (l : list Article) (r : Article) :
  id ∈ ids l → id ∈ ids (merge_step l r).
Proof.
  rewrite <- !count_id_pos, count_id_merge_step.
  destruct (decide (article_id r = id)); lia.
Qed.

Lemma length_merge_known (articles batch : list Article) :
  (∀ r, r ∈ batch → article_id r ∈ ids articles) →
  length (merge articles batch) = length articles.
Proof.
  revert articles. induction batch as [|r batch IH]; intros articles Hin.
  - done.
  - rewrite merge_cons, IH.
    + rewrite merge_step_eq, length_app, Nat.add_1_r.
      apply length_remove_first, Hin. left.
    + intros r' Hr'. apply elem_of_ids_merge_step, Hin. by right.
Qed.

(** ** The trimmer *)

Lemma trim_article_collection_eq (articles : list Article) (max_size : Z) :
  (0 ≤ max_size)%Z →
  trim_article_collection articles max_size
  = Ok (drop (length articles - Z.to_nat max_size) articles).
Proof.
  intros Hmax. induction articles as [|a articles IH].
  - simpl. rewrite bool_decide_eq_false_2 by lia. done.
  - cbn [trim_article_collection]. case_bool_decide as Hlen.
    + rewrite IH. f_equal.
      replace (length (a :: articles) - Z.to_nat max_size)
        with (S (length articles - Z.to_nat max_size))
        by (cbn [length] in *; lia).
      done.
    + replace (length (a :: articles) - Z.to_nat max_size) with 0
        by (cbn [length] in *; lia).
      done.
Qed.

(** ** Removal *)

Lemma remove_first_split (id : string) (l : list Article) :
  id ∈ ids l →
  ∃ pre a post, l = pre ++ a :: post ∧ article_id a = id ∧ (id ∉ ids pre)
                ∧ remove_first id l = pre ++ post.
Proof.
  induction l as [|a l IH]; [by intros ?%elem_of_nil|].
  rewrite ids_cons, elem_of_cons. intros Hin. simpl.
  destruct (decide (article_id a = id)) as [Ha|Ha].
  - rewrite bool_decide_eq_true_2 by done.
    exists [], a, l. split_and!; [done|done|apply not_elem_of_nil|done].
  - rewrite bool_decide_eq_false_2 by done.
    destruct IH as (pre & b & post & -> & Hb & Hpre & Hrm).
    { destruct Hin as [?|?]; [congruence|done]. }
    exists (a :: pre), b, post. split_and!; [done|done| |by rewrite Hrm].
    rewrite ids_cons, not_elem_of_cons. split; [congruence|done].
Qed.

(** C7. [remove_article_by_id] answers [True] exactly when some record of
    the collection carries the id.  In that case the collection loses one
    record, the first one with that id, and all other records stay, in
    order; otherwise the answer is [False] and the collection is the same
    as before. *)
Theorem remove_article_by_id_reports (collection : list Article)
    (id : string) :
  ((remove_article_by_id collection id).2 = true ↔ id ∈ ids collection)
  ∧ (id ∈ ids collection →
     ∃ pre a post,
       collection = pre ++ a :: post ∧ article_id a = id ∧ (id ∉ ids pre)
       ∧ remove_article_by_id collection id = (pre ++ post, true))
  ∧ (id ∉ ids collection →
     remove_article_by_id collection id = (collection, false)).
Proof.
  rewrite remove_article_by_id_eq. simpl. split_and!.
  - apply bool_decide_eq_true.
  - intros Hin.
    destruct (remove_first_split id collection Hin)
      as (pre & a & post & ? & ? & ? & ->).
    exists pre, a, post. by rewrite bool_decide_eq_true_2.
  - intros Hnotin.
    by rewrite remove_first_absent, bool_decide_eq_false_2.
Qed.

Lemma remove_article_by_id_reports_witness :
  "2" ∈ ids three_articles
  ∧ ∃ pre a post,
      three_articles = pre ++ a :: post ∧ article_id a = "2"
      ∧ ("2" ∉ ids pre)
      ∧ remove_article_by_id three_articles "2" = (pre ++ post, true).
Proof.
  assert (Hin : "2" ∈ ids three_articles) by (right; left).
  split; [exact Hin|].
  exact (proj1 (proj2 (remove_article_by_id_reports three_articles "2")) Hin).
Defined.

(** ** Merge *)

(** C1 (amended). For an id that occurs in the batch and exactly once in
    the stored collection, the merged collection holds exactly one record
    with that id, and it is the last record of the batch with that id. *)
Theorem merge_dedupe_correct (articles batch : list Article) (id : string) :
  count_id id articles = 1 → id ∈ ids batch →
  ∃ r, last (with_id id batch) = Some r ∧ r ∈ batch
       ∧ with_id id (merge articles batch) = [r].
Proof.
  intros Hone Hin. rewrite with_id_merge by lia.
  apply count_id_pos in Hin. unfold count_id in Hin.
  destruct (last (with_id id batch)) as [r|] eqn:Hlast.
  - exists r. split_and!; [done| |done].
    apply last_Some_elem_of in Hlast.
    by apply list_elem_of_filter in Hlast as [_ ?].
  - apply last_None in Hlast. rewrite Hlast in Hin. simpl in Hin. lia.
Qed.

Lemma merge_dedupe_correct_witness :
  count_id "2" three_articles = 1 ∧ "2" ∈ ids [sample_article "2" 9]
  ∧ ∃ r, last (with_id "2" [sample_article "2" 9]) = Some r
         ∧ r ∈ [sample_article "2" 9]
         ∧ with_id "2" (merge three_articles [sample_article "2" 9]) = [r].
Proof.
  assert (Hone : count_id "2" three_articles = 1) by reflexivity.
  assert (Hin : "2" ∈ ids [sample_article "2" 9]) by left.
  split_and!; [exact Hone | exact Hin |].
  exact (merge_dedupe_correct three_articles [sample_article "2" 9] "2"
           Hone Hin).
Defined.

(** C1, as stated, fails: when the stored collection already holds an id
    twice, a refetch of that id removes only the first of the two, and two
    records with the id remain, one of them stale. *)
Lemma merge_dedupe_stale_copy_survives :
  "1" ∈ ids twice_stored ∧ "1" ∈ ids [sample_article "1" 9]
  ∧ merge twice_stored [sample_article "1" 9]
    = [sample_article "1" 6; sample_article "1" 9]
  ∧ count_id "1" (merge twice_stored [sample_article "1" 9]) = 2.
Proof. split_and!; [left | left | reflexivity | reflexivity]. Qed.

(** In a collection of distinct ids, records with the same id are the
    same record. *)
Lemma NoDup_ids_same_record (l : list Article) (a b : Article) :
  NoDup (ids l) → a ∈ l → b ∈ l → article_id a = article_id b → a = b.
Proof.
  intros Hnd' Ha Hb Hid.
  pose proof (proj1 (NoDup_ids_count l) Hnd' (article_id a)) as Hnd.
  unfold count_id in Hnd.
  assert (Ha' : a ∈ with_id (article_id a) l)
    by (by apply list_elem_of_filter).
  assert (Hb' : b ∈ with_id (article_id a) l)
    by (by apply list_elem_of_filter).
  destruct (with_id (article_id a) l) as [|c [|d k]]; simpl in Hnd.
  - by apply elem_of_nil in Ha'.
  - apply list_elem_of_singleton in Ha', Hb'. congruence.
  - lia.
Qed.

Lemma trim_NoDup (articles : list Article) (max_size : Z) :
  NoDup (ids articles) → (0 ≤ max_size)%Z →
  ∃ trimmed, trim_article_collection articles max_size = Ok trimmed
             ∧ NoDup (ids trimmed).
Proof.
  intros Hnd Hmax. eexists. split; [by apply trim_article_collection_eq|].
  apply (sublist_NoDup _ (ids articles)); [exact Hnd|].
  apply fmap_sublist, sublist_drop.
Qed.

(** C3. Pairwise distinct ids are an invariant of the merge loop, and of
    the trimmer (which returns for every non-negative bound), be it run on
    the collection or on the merged collection. *)
Theorem uniqueness_invariant (articles batch : list Article) (max_size : Z) :
  NoDup (ids articles) →
  NoDup (ids (merge articles batch))
  ∧ ((0 ≤ max_size)%Z →
     (∃ trimmed, trim_article_collection articles max_size = Ok trimmed
                 ∧ NoDup (ids trimmed))
     ∧ (∃ trimmed, trim_article_collection (merge articles batch) max_size
                   = Ok trimmed
                   ∧ NoDup (ids trimmed))).
Proof.
  intros Hnd. split; [by apply NoDup_ids_merge|].
  intros Hmax. split; apply trim_NoDup; try done.
  by apply NoDup_ids_merge.
Qed.

Lemma uniqueness_invariant_witness :
  NoDup (ids three_articles) ∧ (0 ≤ 2)%Z
  ∧ NoDup (ids (merge three_articles [sample_article "2" 9]))
  ∧ (∃ trimmed, trim_article_collection three_articles 2 = Ok trimmed
                ∧ NoDup (ids trimmed))
  ∧ (∃ trimmed,
       trim_article_collection
         (merge three_articles [sample_article "2" 9]) 2 = Ok trimmed
       ∧ NoDup (ids trimmed)).
Proof.
  assert (Hnd : NoDup (ids three_articles)).
  { apply (bool_decide_unpack _). vm_compute. exact I. }
  assert (Hmax : (0 ≤ 2)%Z) by (intros H; discriminate H).
  pose proof (uniqueness_invariant three_articles [sample_article "2" 9] 2
                Hnd) as [Hmerge Htrim].
  split_and!; [exact Hnd | exact Hmax | exact Hmerge
              | exact (proj1 (Htrim Hmax)) | exact (proj2 (Htrim Hmax))].
Defined.

(** C4. On a collection of distinct ids, merging a batch of records that
    are all in the collection already (same id, same content) keeps the
    length; the records of the batch end up behind all the others, each
    once, in batch order.  When the batch names no id twice, the tail of
    the result is the batch itself. *)
Theorem merge_identical_refetch (articles batch : list Article) :
  NoDup (ids articles) → (∀ r, r ∈ batch → r ∈ articles) →
  length (merge articles batch) = length articles
  ∧ ∃ moved, merge articles batch = untouched articles batch ++ moved
             ∧ moved `sublist_of` batch
             ∧ (∀ r, r ∈ batch ↔ r ∈ moved)
             ∧ NoDup moved
             ∧ (NoDup (ids batch) → moved = batch).
Proof.
  intros Hnd Hsame. split.
  - apply length_merge_known. intros r Hr.
    apply list_elem_of_fmap. exists r. split; [done|by apply Hsame].
  - exists (keep_last batch). split_and!.
    + by apply merge_closed_form.
    + apply keep_last_sublist.
    + intros r. split; [|apply keep_last_subseteq].
      intros Hr.
      assert (Hid : article_id r ∈ ids (keep_last batch)).
      { apply ids_keep_last, list_elem_of_fmap. by exists r. }
      apply list_elem_of_fmap in Hid as (r' & Hid & Hr').
      assert (r = r') as ->; [|done].
      apply (NoDup_ids_same_record articles); [done|by apply Hsame| |done].
      by apply Hsame, keep_last_subseteq.
    + pose proof (NoDup_ids_merge articles batch Hnd) as Hm.
      rewrite merge_closed_form, ids_app in Hm by done.
      apply NoDup_app in Hm as (_ & _ & Hm). by apply NoDup_fmap_1 in Hm.
    + apply keep_last_NoDup.
Qed.

Lemma merge_identical_refetch_witness :
  let batch := [sample_article "3" 2; sample_article "1" 5] in
  NoDup (ids three_articles) ∧ (∀ r, r ∈ batch → r ∈ three_articles)
  ∧ length (merge three_articles batch) = length three_articles
  ∧ ∃ moved, merge three_articles batch = untouched three_articles batch ++ moved
             ∧ moved `sublist_of` batch
             ∧ (∀ r, r ∈ batch ↔ r ∈ moved)
             ∧ NoDup moved
             ∧ (NoDup (ids batch) → moved = batch).
Proof.
  intros batch.
  assert (Hnd : NoDup (ids three_articles)).
  { apply (bool_decide_unpack _). vm_compute. exact I. }
  assert (Hsame : ∀ r, r ∈ batch → r ∈ three_articles).
  { intros r Hr. apply elem_of_cons in Hr as [->|Hr].
    - right; right; left.
    - apply list_elem_of_singleton in Hr as ->. left. }
  split_and!; [exact Hnd | exact Hsame | ..];
    apply (merge_identical_refetch three_articles batch Hnd Hsame).
Defined.

(** C10. On a collection of distinct ids, the records whose id is not in
    the batch come through the merge as they are, in their order, and in
    front of everything the merge appended. *)
Theorem merge_untouched_stable (articles batch : list Article) :
  NoDup (ids articles) →
  ∃ appended, merge articles batch = untouched articles batch ++ appended
              ∧ (∀ a, a ∈ appended → a ∈ batch)
              ∧ (∀ a, a ∈ untouched articles batch
                      ↔ a ∈ articles ∧ article_id a ∉ ids batch)
              ∧ untouched articles batch `sublist_of` articles.
Proof.
  intros Hnd. exists (keep_last batch). split_and!.
  - by apply merge_closed_form.
  - apply keep_last_subseteq.
  - intros a. unfold untouched. rewrite list_elem_of_filter. tauto.
  - apply sublist_filter.
Qed.

Lemma merge_untouched_stable_witness :
  NoDup (ids three_articles)
  ∧ ∃ appended,
      merge three_articles [sample_article "2" 9]
      = untouched three_articles [sample_article "2" 9] ++ appended
      ∧ (∀ a, a ∈ appended → a ∈ [sample_article "2" 9])
      ∧ (∀ a, a ∈ untouched three_articles [sample_article "2" 9]
              ↔ a ∈ three_articles
                ∧ article_id a ∉ ids [sample_article "2" 9])
      ∧ untouched three_articles [sample_article "2" 9]
          `sublist_of` three_articles.
Proof.
  assert (Hnd : NoDup (ids three_articles)).
  { apply (bool_decide_unpack _). vm_compute. exact I. }
  split; [exact Hnd|].
  exact (merge_untouched_stable three_articles [sample_article "2" 9] Hnd).
Defined.

(** C5 (amended). When the batch carries an id two or more times and the
    stored collection carries it at most once, the merged collection
    holds exactly one record with that id: the last record of the batch
    with that id.  If that record is the last of the batch, it is the last
    of the merged collection. *)
Theorem merge_batch_duplicates (articles batch : list Article) (id : string) :
  count_id id articles ≤ 1 → 2 ≤ count_id id batch →
  ∃ r, last (with_id id batch) = Some r
       ∧ with_id id (merge articles batch) = [r]
       ∧ (last batch = Some r → last (merge articles batch) = Some r).
Proof.
  intros Hle Htwice. rewrite with_id_merge by done.
  unfold count_id in Htwice.
  destruct (last (with_id id batch)) as [r|] eqn:Hlast.
  - exists r. split_and!; [done|done|apply last_merge].
  - apply last_None in Hlast. rewrite Hlast in Htwice. simpl in Htwice. lia.
Qed.

Lemma merge_batch_duplicates_witness :
  let batch := [sample_article "2" 8; sample_article "4" 1;
                sample_article "2" 9] in
  count_id "2" three_articles ≤ 1 ∧ 2 ≤ count_id "2" batch
  ∧ ∃ r, last (with_id "2" batch) = Some r
         ∧ with_id "2" (merge three_articles batch) = [r]
         ∧ (last batch = Some r
            → last (merge three_articles batch) = Some r).
Proof.
  intros batch.
  assert (Hle : count_id "2" three_articles ≤ 1) by (vm_compute; lia).
  assert (Htwice : 2 ≤ count_id "2" batch) by (vm_compute; lia).
  split_and!; [exact Hle | exact Htwice |].
  exact (merge_batch_duplicates three_articles batch "2" Hle Htwice).
Defined.

(** C5, as stated, fails: a collection that holds the id three times
    loses one copy per record of the batch, oldest copy first; here one
    stored copy survives next to both records of the batch, so three
    records with the id remain. *)
Lemma merge_batch_duplicates_two_remain :
  count_id "1" [sample_article "1" 8; sample_article "1" 9] = 2
  ∧ merge (twice_stored ++ [sample_article "1" 7])
      [sample_article "1" 8; sample_article "1" 9]
    = [sample_article "1" 7; sample_article "1" 8; sample_article "1" 9]
  ∧ count_id "1" (merge (twice_stored ++ [sample_article "1" 7])
                    [sample_article "1" 8; sample_article "1" 9]) = 3.
Proof. split_and!; reflexivity. Qed.

(** ** Trim *)

(** C2. For a non-negative bound the trimmer returns, and what it leaves
    is the collection without its oldest records: the last [max_size]
    records in their order (all of them when there are no more than
    [max_size]).  The length is at most [max_size]; a bound of 0 empties
    the collection; a collection within the bound is left as it is. *)
Theorem trim_invariant (articles : list Article) (max_size : Z) :
  (0 ≤ max_size)%Z →
  ∃ trimmed,
    trim_article_collection articles max_size = Ok trimmed
    ∧ trimmed = drop (length articles - Z.to_nat max_size) articles
    ∧ length trimmed = Nat.min (length articles) (Z.to_nat max_size)
    ∧ (Z.of_nat (length trimmed) ≤ max_size)%Z
    ∧ (max_size = 0%Z → trimmed = [])
    ∧ ((Z.of_nat (length articles) ≤ max_size)%Z → trimmed = articles).
Proof.
  intros Hmax. eexists. split; [by apply trim_article_collection_eq|].
  split_and!.
  - done.
  - rewrite length_drop. lia.
  - rewrite length_drop. lia.
  - intros ->. apply drop_ge. simpl. lia.
  - intros Hlen.
    replace (length articles - Z.to_nat max_size) with 0 by lia. done.
Qed.

Lemma trim_invariant_witness :
  (0 ≤ 2)%Z
  ∧ ∃ trimmed,
      trim_article_collection three_articles 2 = Ok trimmed
      ∧ trimmed = drop (length three_articles - Z.to_nat 2) three_articles
      ∧ length trimmed = Nat.min (length three_articles) (Z.to_nat 2)
      ∧ (Z.of_nat (length trimmed) ≤ 2)%Z
      ∧ (2%Z = 0%Z → trimmed = [])
      ∧ ((Z.of_nat (length three_articles) ≤ 2)%Z
         → trimmed = three_articles).
Proof.
  assert (Hmax : (0 ≤ 2)%Z) by (intros H; discriminate H).
  split; [exact Hmax|].
  exact (trim_invariant three_articles 2 Hmax).
Defined.

(** The scenario of the spec: ids 1, 2, 3 trimmed to two records. *)
Example trim_scenario :
  trim_article_collection three_articles 2
  = Ok [sample_article "2" 7; sample_article "3" 2].
Proof. reflexivity. Qed.

(** A negative bound makes the loop pop from the empty list. *)
Example trim_negative_bound :
  trim_article_collection three_articles (-1) = Raise IndexError.
Proof. reflexivity. Qed.

(** ** The listing parser *)

Section listing_parser_facts.

Variable new_Article :
  string → string → string → string → string → string → string → bool →
  Article.

(** What the loop returns, for any records collected before: the new
    records are the parses of a prefix of the rows, in row order, and the
    loop stops after the first record that brings the count up to
    [max_articles] - so never before it has taken one row. *)
Lemma listing_loop_ok (rows : list Row) (generate_summaries : bool)
    (max_articles : Z) (collected result : list Article) :
  listing_loop new_Article rows generate_summaries max_articles collected
    (Z.of_nat (length collected)) = Ok result →
  ∃ new, result = collected ++ new
         ∧ Forall2 (λ row a, parse_row new_Article row generate_summaries
                             = Ok a)
             (take (length new) rows) new
         ∧ length new
           = Nat.min (length rows)
               (Z.to_nat (Z.max 1 (max_articles - Z.of_nat (length collected)))).
Proof.
  revert collected. induction rows as [|row rows IH]; intros collected.
  - intros [= <-]. exists []. by rewrite app_nil_r.
  - cbn [listing_loop].
    destruct (parse_row new_Article row generate_summaries) as [a|e] eqn:Hrow;
      [|done].
    cbn [mbind result_bind]. case_bool_decide as Hcap.
    + intros [= <-]. exists [a]. split_and!; [done| |cbn [length]; lia].
      cbn [length take]. by repeat constructor.
    + replace (Z.of_nat (length collected) + 1)%Z
        with (Z.of_nat (length (collected ++ [a])))
        by (rewrite length_app; cbn [length]; lia).
      intros (new & -> & Hparsed & Hlen)%IH.
      exists (a :: new). split_and!.
      * by rewrite <- (assoc_L (++)).
      * cbn [length take]. by constructor.
      * rewrite length_app in Hlen. cbn [length] in *. lia.
Qed.

(** The cap of [return_articles]: the parses of the first rows of the
    page, in page order; as many as there are rows, up to [max_articles]
    or up to one, whichever is larger. *)
Lemma return_articles_ok (rows : list Row) (generate_summaries : bool)
    (max_articles : Z) (result : list Article) :
  return_articles new_Article rows generate_summaries max_articles
  = Ok result →
  Forall2 (λ row a, parse_row new_Article row generate_summaries = Ok a)
    (take (length result) rows) result
  ∧ length result
    = Nat.min (length rows) (Z.to_nat (Z.max 1 max_articles)).
Proof.
  intros (new & -> & Hparsed & Hlen)%(listing_loop_ok rows _ _ []).
  cbn [length Z.of_nat] in Hlen. rewrite Z.sub_0_r in Hlen. done.
Qed.

(** C8. The cap is checked after a record has been appended, so a cap of
    0 does not give the empty list: on a page with two rows,
    [return_articles] with [max_articles = 0] returns the record of the
    first row. *)
Theorem return_articles_zero_cap (generate_summaries : bool) :
  return_articles new_Article [listing_row "1"; listing_row "2"]
    generate_summaries 0
  = Ok [new_Article "1" "Show HN: a feed of summaries"
          "https://example.com/post" "120 points" "pg" "1"
          "2024-01-15T08:00:00" generate_summaries].
Proof. reflexivity. Qed.

(** With a cap of at least one the result has at most [max_articles]
    records. *)
Lemma return_articles_positive_cap (rows : list Row)
    (generate_summaries : bool) (max_articles : Z) (result : list Article) :
  (1 ≤ max_articles)%Z →
  return_articles new_Article rows generate_summaries max_articles
  = Ok result →
  (Z.of_nat (length result) ≤ max_articles)%Z.
Proof. intros Hmax (_ & Hlen)%return_articles_ok. lia. Qed.

End listing_parser_facts.

(** ** Date resolution *)

Lemma digit_value_digit (n : Z) : digit_value (digit n) = Some (n mod 10)%Z.
Proof.
  unfold digit_value, digit.
  pose proof (Z.mod_pos_bound n 10 ltac:(lia)) as Hb.
  rewrite nat_ascii_embedding by lia.
  replace ((48 <=? 48 + Z.to_nat (n mod 10))%nat) with true
    by (symmetry; apply Nat.leb_le; lia).
  replace ((48 + Z.to_nat (n mod 10) <=? 57)%nat) with true
    by (symmetry; apply Nat.leb_le; lia).
  simpl. f_equal. lia.
Qed.

Lemma read_Ymd_strftime (d : datetime) :
  valid_date d →
  read_Ymd (strftime_Ymd d) = Some (year d, month d, day d).
Proof.
  intros (Hy & Hm & Hd).
  assert (day d ≤ 31)%Z.
  { unfold days_in_month in Hd. repeat case_match; lia. }
  unfold strftime_Ymd, read_Ymd. lazy beta iota.
  rewrite !digit_value_digit. simpl.
  f_equal. f_equal; [f_equal|]; Z.div_mod_to_equations; lia.
Qed.

Lemma days_before_year_succ (y : Z) :
  (1 ≤ y)%Z →
  days_before_year (y + 1)
  = (days_before_year y + if is_leap y then 366 else 365)%Z.
Proof.
  intros Hy. unfold days_before_year, is_leap.
  replace (y + 1 - 1)%Z with y by lia.
  destruct (Z.eqb_spec (y mod 4) 0), (Z.eqb_spec (y mod 100) 0),
    (Z.eqb_spec (y mod 400) 0); simpl; Z.div_mod_to_equations; lia.
Qed.

Lemma days_before_month_succ (y m : Z) :
  (1 ≤ m)%Z →
  days_before_month y (m + 1)
  = (days_before_month y m + days_in_month y m)%Z.
Proof.
  intros Hm. unfold days_before_month.
  replace (Z.to_nat (m + 1) - 1) with (S (Z.to_nat m - 1)) by lia.
  rewrite seq_S, fmap_app, foldr_app.
  change ((λ k, days_in_month y (Z.of_nat k)) <$> [1 + (Z.to_nat m - 1)])
    with [days_in_month y (Z.of_nat (1 + (Z.to_nat m - 1)))].
  replace (Z.of_nat (1 + (Z.to_nat m - 1))) with m by lia.
  generalize (days_in_month y m). intros k.
  change (foldr Z.add 0%Z [k]) with (k + 0)%Z.
  induction (seq 1 (Z.to_nat m - 1)) as [|j l IH].
  - cbn [fmap list_fmap foldr]. lia.
  - rewrite fmap_cons. cbn [foldr]. rewrite IH. lia.
Qed.

Lemma days_before_month_12 (y : Z) :
  days_before_month y 12 = if is_leap y then 335%Z else 334%Z.
Proof.
  unfold days_before_month, days_in_month. cbn -[is_leap].
  by destruct (is_leap y).
Qed.

Lemma days_in_month_bounds (y m : Z) : (28 ≤ days_in_month y m ≤ 31)%Z.
Proof. unfold days_in_month. repeat case_match; lia. Qed.

Lemma minus_one_day_spec (d : datetime) :
  valid_date d → (1 < year d ∨ 1 < month d ∨ 1 < day d)%Z →
  ∃ y, minus_one_day d = Ok y ∧ valid_date y
       ∧ toordinal y = (toordinal d - 1)%Z.
Proof.
  intros (Hy & Hm & Hd) Hfirst. unfold minus_one_day.
  destruct (Z.ltb_spec 1 (day d)) as [Hday|Hday].
  { eexists. split; [done|]. unfold valid_date, toordinal. simpl. lia. }
  destruct (Z.ltb_spec 1 (month d)) as [Hmonth|Hmonth].
  { eexists. split; [done|]. unfold valid_date, toordinal. simpl.
    pose proof (days_in_month_bounds (year d) (month d - 1)).
    pose proof (days_before_month_succ (year d) (month d - 1)) as Hs.
    replace (month d - 1 + 1)%Z with (month d) in Hs by lia. lia. }
  destruct (Z.ltb_spec 1 (year d)) as [Hyear|Hyear]; [|lia].
  eexists. split; [done|]. unfold valid_date, toordinal. simpl.
  pose proof (days_before_year_succ (year d - 1)) as Hs.
  replace (year d - 1 + 1)%Z with (year d) in Hs by lia.
  rewrite days_before_month_12. replace (month d) with 1%Z by lia.
  change (days_before_month (year d) 1) with 0%Z.
  change (days_in_month (year d - 1) 12) with 31%Z.
  destruct (is_leap (year d - 1)); lia.
Qed.

(** [get_date] by cases on the stored option: a truthy value is returned
    as it is, anything else gives the formatted previous day. *)
Lemma get_date_eq (settings : gmap string json) (now : datetime) :
  get_date settings now
  = match settings !! "override_date" with
    | Some v =>
        if truthy v then Ok v
        else yesterday ← minus_one_day now; Ok (JStr (strftime_Ymd yesterday))
    | None => yesterday ← minus_one_day now; Ok (JStr (strftime_Ymd yesterday))
    end.
Proof.
  unfold get_date. destruct (settings !! "override_date") as [v|]; [|done].
  by destruct v as [|[]|n|s|l|d]; simpl; try destruct (negb _).
Qed.

(** C6. A non-empty override string is returned as it is, whatever the
    clock reads, and so is any other stored value that Python takes for
    true.  In every other configuration - the option absent, or stored
    with a value Python takes for false: the empty string, [null],
    [false], 0, an empty list or object - the answer is the day before the
    clock's date (one less in the day count, a date of the calendar),
    written as ten characters [YYYY-MM-DD] that read back as that year,
    month and day; this for every clock reading after the year 1000. *)
Theorem get_date_resolution (settings : gmap string json) (now : datetime) :
  (∀ s, settings !! "override_date" = Some (JStr s) → s ≠ "" →
        get_date settings now = Ok (JStr s))
  ∧ (∀ v, settings !! "override_date" = Some v → truthy v = true →
          get_date settings now = Ok v)
  ∧ (settings !! "override_date" = None
     ∨ (∃ v, settings !! "override_date" = Some v ∧ truthy v = false) →
     valid_date now → (1000 < year now)%Z →
     ∃ yesterday,
       minus_one_day now = Ok yesterday
       ∧ valid_date yesterday
       ∧ toordinal yesterday = (toordinal now - 1)%Z
       ∧ get_date settings now = Ok (JStr (strftime_Ymd yesterday))
       ∧ read_Ymd (strftime_Ymd yesterday)
         = Some (year yesterday, month yesterday, day yesterday)).
Proof.
  split; [|split].
  - intros s Hs Hne. rewrite get_date_eq, Hs. simpl.
    by destruct s.
  - intros v Hs Hv. by rewrite get_date_eq, Hs, Hv.
  - intros Hunset Hvalid Hyear.
    destruct (minus_one_day_spec now Hvalid) as (y & Hy & Hvy & Hord);
      [lia|].
    exists y. split_and!; [done|done|done| |by apply read_Ymd_strftime].
    rewrite get_date_eq.
    destruct Hunset as [->|(v & -> & Hv)]; [|rewrite Hv]; simpl;
      by rewrite Hy.
Qed.

Lemma get_date_resolution_witness :
  get_date override_settings first_of_march = Ok (JStr "2024-01-15")
  ∧ get_date plain_settings first_of_march = Ok (JStr "2024-02-29")
  ∧ get_date empty_override_settings first_of_march = Ok (JStr "2024-02-29")
  ∧ get_date null_override_settings first_of_march = Ok (JStr "2024-02-29").
Proof.
  assert (Hvalid : valid_date first_of_march) by (vm_compute; intuition discriminate).
  assert (Hfirst : (1000 < year first_of_march)%Z) by reflexivity.
  split_and!.
  - apply (proj1 (get_date_resolution override_settings first_of_march)
             "2024-01-15"); [reflexivity | discriminate].
  - destruct (proj2 (proj2 (get_date_resolution plain_settings
                              first_of_march))
                (or_introl eq_refl) Hvalid Hfirst)
      as (y & Hy & _ & _ & Hdate & _).
    injection Hy as <-. exact Hdate.
  - destruct (proj2 (proj2 (get_date_resolution empty_override_settings
                              first_of_march))
                (or_intror (ex_intro _ (JStr "") (conj eq_refl eq_refl)))
                Hvalid Hfirst)
      as (y & Hy & _ & _ & Hdate & _).
    injection Hy as <-. exact Hdate.
  - destruct (proj2 (proj2 (get_date_resolution null_override_settings
                              first_of_march))
                (or_intror (ex_intro _ JNull (conj eq_refl eq_refl)))
                Hvalid Hfirst)
      as (y & Hy & _ & _ & Hdate & _).
    injection Hy as <-. exact Hdate.
Defined.

(** * Further properties of the modelled code *)

(** ** The trimmer, continued *)

Lemma trim_negative (articles : list Article) (max_size : Z) :
  (max_size < 0)%Z →
  trim_article_collection articles max_size = Raise IndexError.
Proof.
  intros Hneg. induction articles as [|a articles IH].
  - simpl. by rewrite bool_decide_eq_true_2 by lia.
  - cbn [trim_article_collection].
    rewrite bool_decide_eq_true_2 by (cbn [length]; lia). done.
Qed.

(** X1. The trimmer raises exactly when the bound is negative, whatever
    the collection (the empty one included): the loop then empties the
    list and pops once more.  For every bound that is not negative it
    returns a collection. *)
Theorem trim_raises_iff_negative (articles : list Article) (max_size : Z) :
  (trim_article_collection articles max_size = Raise IndexError
   ↔ (max_size < 0)%Z)
  ∧ ((0 ≤ max_size)%Z →
     ∃ trimmed, trim_article_collection articles max_size = Ok trimmed).
Proof.
  split; [split; [|apply trim_negative] |].
  - intros Hraise. destruct (decide (max_size < 0)%Z) as [|Hge]; [done|].
    rewrite trim_article_collection_eq in Hraise by lia. done.
  - intros Hmax. eexists. by apply trim_article_collection_eq.
Qed.

Lemma trim_raises_iff_negative_witness :
  trim_article_collection three_articles (-1) = Raise IndexError
  ∧ trim_article_collection [] (-1) = Raise IndexError
  ∧ ∃ trimmed, trim_article_collection three_articles 0 = Ok trimmed.
Proof.
  assert (Hneg : (-1 < 0)%Z) by reflexivity.
  assert (Hmax : (0 ≤ 0)%Z) by (intros H; discriminate H).
  split_and!.
  - exact (proj2 (proj1 (trim_raises_iff_negative three_articles (-1))) Hneg).
  - exact (proj2 (proj1 (trim_raises_iff_negative [] (-1))) Hneg).
  - exact (proj2 (trim_raises_iff_negative three_articles 0) Hmax).
Defined.

(** X2. Trimming to a bound and then to a smaller or equal one gives what
    trimming to the latter gives at once; in particular trimming twice to
    the same bound changes nothing the second time. *)
Theorem trim_compose (articles : list Article) (m n : Z) :
  (0 ≤ n ≤ m)%Z →
  ∃ trimmed,
    trim_article_collection articles m = Ok trimmed
    ∧ trim_article_collection trimmed n = trim_article_collection articles n
    ∧ trim_article_collection trimmed m = Ok trimmed.
Proof.
  intros [Hn Hm]. eexists. split; [apply trim_article_collection_eq; lia|].
  rewrite !trim_article_collection_eq by lia.
  rewrite !drop_drop, !length_drop. split; f_equal.
  - f_equal. lia.
  - replace (length articles - Z.to_nat m
             + (length articles - (length articles - Z.to_nat m) - Z.to_nat m))
      with (length articles - Z.to_nat m) by lia. done.
Qed.

Lemma trim_compose_witness :
  (0 ≤ 1 ≤ 2)%Z
  ∧ ∃ trimmed,
      trim_article_collection three_articles 2 = Ok trimmed
      ∧ trim_article_collection trimmed 1
        = trim_article_collection three_articles 1
      ∧ trim_article_collection trimmed 2 = Ok trimmed.
Proof.
  assert (Hbounds : (0 ≤ 1 ≤ 2)%Z) by (split; intros H; discriminate H).
  split; [exact Hbounds|].
  exact (trim_compose three_articles 2 1 Hbounds).
Defined.

(** ** Removal, continued *)

Lemma remove_first_sublist (id : string) (l : list Article) :
  remove_first id l `sublist_of` l.
Proof.
  induction l as [|a l IH]; [done|]. simpl.
  case_bool_decide; [by apply sublist_cons | by apply sublist_skip].
Qed.

(** X3. What a removal costs: the length drops by one exactly when the
    answer is [True]; the result is the collection with records left out,
    in order; of a duplicated id only the oldest record goes, and the
    records of every other id stay as they are. *)
Theorem remove_article_by_id_accounting (collection : list Article)
    (id : string) :
  let after := (remove_article_by_id collection id).1 in
  let found := (remove_article_by_id collection id).2 in
  length after + (if found then 1 else 0) = length collection
  ∧ after `sublist_of` collection
  ∧ ∀ id', with_id id' after
           = if decide (id = id') then tail (with_id id' collection)
             else with_id id' collection.
Proof.
  rewrite remove_article_by_id_eq. cbn [fst snd]. split_and!.
  - case_bool_decide as Hin.
    + apply length_remove_first in Hin. lia.
    + rewrite remove_first_absent by done. lia.
  - apply remove_first_sublist.
  - intros id'. apply with_id_remove_first.
Qed.

(** ** The merge loop, continued *)

Lemma elem_of_ids_merge (id : string) (articles batch : list Article) :
  id ∈ ids (merge articles batch) ↔ id ∈ ids articles ∨ id ∈ ids batch.
Proof.
  rewrite <- !count_id_pos, count_id_merge.
  destruct (decide (id ∈ ids batch)) as [Hin|Hin].
  - apply count_id_pos in Hin. lia.
  - split; [by left|]. intros [?|Hb]; [done|].
    apply count_id_pos in Hb. done.
Qed.

Lemma remove_first_app (id : string) (l k : list Article) :
  remove_first id (l ++ k)
  = if decide (id ∈ ids l) then remove_first id l ++ k
    else l ++ remove_first id k.
Proof.
  induction l as [|a l IH]; [done|].
  rewrite ids_cons. cbn [app remove_first].
  destruct (decide (article_id a = id)) as [Ha|Ha].
  - rewrite bool_decide_eq_true_2 by done.
    rewrite decide_True; [done|]. rewrite Ha. left.
  - rewrite bool_decide_eq_false_2 by done. rewrite IH.
    destruct (decide (id ∈ ids l)) as [Hin|Hin].
    + rewrite decide_True; [done|]. by right.
    + rewrite decide_False; [done|].
      intros [?|?]%elem_of_cons; [congruence|done].
Qed.

(** The result of the merge loop splits into records kept from the
    collection and records appended from the batch, each part in the order
    it had. *)
Lemma merge_kept_appended (articles batch : list Article) :
  ∃ kept appended,
    merge articles batch = kept ++ appended
    ∧ kept `sublist_of` articles ∧ appended `sublist_of` batch.
Proof.
  induction batch as [|r batch IH] using rev_ind.
  - exists articles, []. by rewrite merge_nil, app_nil_r.
  - destruct IH as (kept & appended & Hmerge & Hkept & Happ).
    rewrite merge_snoc, merge_step_eq, Hmerge, remove_first_app.
    destruct (decide (article_id r ∈ ids kept)).
    + exists (remove_first (article_id r) kept), (appended ++ [r]).
      split_and!.
      * by rewrite <- (assoc_L (++)).
      * by etrans; [apply remove_first_sublist|].
      * by apply sublist_app.
    + exists kept, (remove_first (article_id r) appended ++ [r]).
      split_and!.
      * by rewrite <- (assoc_L (++)).
      * done.
      * apply sublist_app; [|done].
        by etrans; [apply remove_first_sublist|].
Qed.

(** X4. The merge loop neither loses nor invents an id: the ids of the
    result are those of the collection and of the batch.  The result is
    made of records kept from the collection, in their order, followed by
    records of the batch, in their order, and the last record of the batch
    is the last record of the result. *)
Theorem merge_membership (articles batch : list Article) :
  (∀ id, id ∈ ids (merge articles batch)
         ↔ id ∈ ids articles ∨ id ∈ ids batch)
  ∧ (∃ kept appended,
       merge articles batch = kept ++ appended
       ∧ kept `sublist_of` articles ∧ appended `sublist_of` batch)
  ∧ (∀ r, last batch = Some r → last (merge articles batch) = Some r).
Proof.
  split_and!.
  - intros id. apply elem_of_ids_merge.
  - apply merge_kept_appended.
  - intros r. apply last_merge.
Qed.

(** The rounds for records whose ids are all among those of [named] leave
    the records of other ids as they are, duplicated or not. *)
Lemma untouched_merge (articles batch named : list Article) :
  (∀ r, r ∈ batch → article_id r ∈ ids named) →
  untouched (merge articles batch) named = untouched articles named.
Proof.
  revert articles. induction batch as [|r batch IH]; intros articles Hin.
  - done.
  - rewrite merge_cons, IH by (intros r' ?; apply Hin; by right).
    assert (Hr : article_id r ∈ ids named) by (apply Hin; left).
    rewrite merge_step_eq, untouched_snoc, bool_decide_eq_true_2 by done.
    rewrite app_nil_r. clear -Hr. unfold untouched.
    induction articles as [|a articles IHa]; [done|]. simpl.
    case_bool_decide as Ha.
    + rewrite filter_cons_False; [done|]. rewrite Ha. by intros ?.
    + rewrite !filter_cons. by rewrite IHa.
Qed.

(** X5. On any collection, with or without repeated ids: the records
    whose id is not in the batch are the same before and after, in the
    same order; an id of the batch ends with as many records as it had,
    and with one if it had none.  So the loop never adds a duplicate and
    never clears one that is stored. *)
Theorem merge_accounting (articles batch : list Article) :
  untouched (merge articles batch) batch = untouched articles batch
  ∧ ∀ id, id ∈ ids batch →
          count_id id (merge articles batch)
          = Nat.max 1 (count_id id articles).
Proof.
  split.
  - apply untouched_merge. intros r Hr. apply list_elem_of_fmap. by exists r.
  - intros id Hin. rewrite count_id_merge. by rewrite decide_True.
Qed.

Lemma length_merge_step (articles : list Article) (r : Article) :
  length (merge_step articles r)
  = if decide (article_id r ∈ ids articles) then length articles
    else S (length articles).
Proof.
  rewrite merge_step_eq, length_app, Nat.add_1_r.
  destruct (decide (article_id r ∈ ids articles)) as [Hin|Hin].
  - by apply length_remove_first.
  - by rewrite remove_first_absent.
Qed.

(** X6. The merged collection is at least as long as the stored one and
    longer by at most the length of the batch.  When the stored ids are
    pairwise distinct its length is the number of different ids of the
    collection and the batch together. *)
Theorem merge_length (articles batch : list Article) :
  length articles ≤ length (merge articles batch)
                  ≤ length articles + length batch
  ∧ (NoDup (ids articles) →
     length (merge articles batch)
     = size (list_to_set (ids articles) ∪ list_to_set (ids batch)
             : gset string)).
Proof.
  split.
  - revert articles. induction batch as [|r batch IH]; intros articles.
    + rewrite merge_nil. simpl. lia.
    + rewrite merge_cons. specialize (IH (merge_step articles r)).
      rewrite length_merge_step in IH. cbn [length].
      destruct (decide (article_id r ∈ ids articles)); lia.
  - intros Hnd. apply (NoDup_ids_merge articles batch) in Hnd.
    rewrite <- (length_fmap article_id). fold (ids (merge articles batch)).
    rewrite <- (size_list_to_set (C:=gset string)) by done.
    f_equal. apply set_eq. intros id.
    rewrite elem_of_union, !elem_of_list_to_set. apply elem_of_ids_merge.
Qed.

(** X7. On a collection of distinct ids, merging the same batch a second
    time changes nothing. *)
Theorem merge_idempotent (articles batch : list Article) :
  NoDup (ids articles) →
  merge (merge articles batch) batch = merge articles batch.
Proof.
  intros Hnd.
  rewrite (merge_closed_form (merge articles batch))
    by by apply NoDup_ids_merge.
  rewrite (untouched_merge articles batch batch)
    by (intros r Hr; apply list_elem_of_fmap; by exists r).
  by rewrite <- merge_closed_form.
Qed.

Lemma merge_idempotent_witness :
  let batch := [sample_article "2" 9; sample_article "4" 1;
                sample_article "2" 10] in
  NoDup (ids three_articles)
  ∧ merge (merge three_articles batch) batch = merge three_articles batch.
Proof.
  intros batch.
  assert (Hnd : NoDup (ids three_articles)).
  { apply (bool_decide_unpack _). vm_compute. exact I. }
  split; [exact Hnd|].
  exact (merge_idempotent three_articles batch Hnd).
Defined.

(** X8. On a collection of distinct ids, a batch that names no id twice
    (a listing page) is appended as it is, in page order, behind the
    stored records it does not name; on an empty collection the result is
    the batch. *)
Theorem merge_distinct_batch (articles batch : list Article) :
  NoDup (ids articles) → NoDup (ids batch) →
  merge articles batch = untouched articles batch ++ batch
  ∧ merge [] batch = batch.
Proof.
  intros Hnd Hbatch. split.
  - by rewrite merge_closed_form, keep_last_NoDup.
  - rewrite merge_closed_form by constructor. by rewrite keep_last_NoDup.
Qed.

Lemma merge_distinct_batch_witness :
  let batch := [sample_article "2" 9; sample_article "4" 1] in
  NoDup (ids three_articles) ∧ NoDup (ids batch)
  ∧ merge three_articles batch = untouched three_articles batch ++ batch
  ∧ merge [] batch = batch.
Proof.
  intros batch.
  assert (Hnd : NoDup (ids three_articles)).
  { apply (bool_decide_unpack _). vm_compute. exact I. }
  assert (Hbatch : NoDup (ids batch)).
  { apply (bool_decide_unpack _). vm_compute. exact I. }
  split_and!; [exact Hnd | exact Hbatch | ..];
    apply (merge_distinct_batch three_articles batch Hnd Hbatch).
Defined.

(** X9. Merge followed by trim (lines 204-211), on a collection of
    distinct ids and a non-negative bound.  If the bound is at least the
    number of different ids of the batch, every one of them keeps its
    newest record and only stored records the batch does not name are
    evicted, oldest first.  If the bound is at most that number, no
    stored record is left and the batch loses its earliest records. *)
Theorem merge_then_trim (articles batch : list Article) (max_size : Z) :
  NoDup (ids articles) → (0 ≤ max_size)%Z →
  ∃ trimmed,
    trim_article_collection (merge articles batch) max_size = Ok trimmed
    ∧ ((Z.of_nat (length (keep_last batch)) ≤ max_size)%Z →
       trimmed
       = drop (length (merge articles batch) - Z.to_nat max_size)
           (untouched articles batch)
         ++ keep_last batch)
    ∧ ((max_size ≤ Z.of_nat (length (keep_last batch)))%Z →
       trimmed
       = drop (length (keep_last batch) - Z.to_nat max_size)
           (keep_last batch)).
Proof.
  intros Hnd Hmax. eexists. split; [by apply trim_article_collection_eq|].
  rewrite (merge_closed_form articles batch Hnd), length_app. split.
  - intros Hfit. rewrite drop_app_le by lia. done.
  - intros Hsmall. rewrite drop_app_ge by lia. f_equal. lia.
Qed.

Lemma merge_then_trim_witness :
  let batch := [sample_article "2" 9; sample_article "4" 1] in
  NoDup (ids three_articles) ∧ (0 ≤ 3)%Z
  ∧ ∃ trimmed,
      trim_article_collection (merge three_articles batch) 3 = Ok trimmed
      ∧ ((Z.of_nat (length (keep_last batch)) ≤ 3)%Z →
         trimmed
         = drop (length (merge three_articles batch) - Z.to_nat 3)
             (untouched three_articles batch)
           ++ keep_last batch)
      ∧ ((3 ≤ Z.of_nat (length (keep_last batch)))%Z →
         trimmed
         = drop (length (keep_last batch) - Z.to_nat 3) (keep_last batch)).
Proof.
  intros batch.
  assert (Hnd : NoDup (ids three_articles)).
  { apply (bool_decide_unpack _). vm_compute. exact I. }
  assert (Hmax : (0 ≤ 3)%Z) by (intros H; discriminate H).
  split_and!; [exact Hnd | exact Hmax |].
  exact (merge_then_trim three_articles batch 3 Hnd Hmax).
Defined.

(** ** The listing parser, continued *)

Section listing_parser_rows.

Variable new_Article :
  string → string → string → string → string → string → string → bool →
  Article.

Lemma listing_loop_prefix (rows : list Row) (generate_summaries : bool)
    (max_articles : Z) (collected new : list Article) :
  Forall2 (λ row a, parse_row new_Article row generate_summaries = Ok a)
    (take (Z.to_nat (Z.max 1 (max_articles - Z.of_nat (length collected))))
       rows) new →
  listing_loop new_Article rows generate_summaries max_articles collected
    (Z.of_nat (length collected)) = Ok (collected ++ new).
Proof.
  revert collected new. induction rows as [|row rows IH];
    intros collected new Hparsed.
  - rewrite take_nil in Hparsed. apply Forall2_nil_inv_l in Hparsed as ->.
    by rewrite app_nil_r.
  - cbn [listing_loop].
    destruct (Z.to_nat (Z.max 1 (max_articles - Z.of_nat (length collected))))
      as [|n] eqn:Hn; [lia|].
    cbn [take] in Hparsed.
    apply Forall2_cons_inv_l in Hparsed as (a & new' & Hrow & Hparsed & ->).
    rewrite Hrow. cbn [mbind result_bind]. case_bool_decide as Hcap.
    + assert (n = 0) as -> by lia. rewrite take_0 in Hparsed.
      by apply Forall2_nil_inv_l in Hparsed as ->.
    + replace (Z.of_nat (length collected) + 1)%Z
        with (Z.of_nat (length (collected ++ [a])))
        by (rewrite length_app; cbn [length]; lia).
      rewrite (IH (collected ++ [a]) new').
      * by rewrite <- (assoc_L (++)).
      * replace (Z.to_nat (Z.max 1 (max_articles
                                     - Z.of_nat (length (collected ++ [a])))))
          with n by (rewrite length_app; cbn [length]; lia).
        done.
Qed.

Lemma listing_loop_abort (good : list Row) (bad : Row) (rest : list Row)
    (generate_summaries : bool) (max_articles : Z)
    (collected parsed : list Article) (e : exn) :
  Forall2 (λ row a, parse_row new_Article row generate_summaries = Ok a)
    good parsed →
  parse_row new_Article bad generate_summaries = Raise e →
  length good
  < Z.to_nat (Z.max 1 (max_articles - Z.of_nat (length collected))) →
  listing_loop new_Article (good ++ bad :: rest) generate_summaries
    max_articles collected (Z.of_nat (length collected)) = Raise e.
Proof.
  intros Hgood Hbad. revert collected.
  induction Hgood as [|row a good parsed Hrow _ IH]; intros collected Hcap.
  - cbn [app listing_loop]. by rewrite Hbad.
  - cbn [app listing_loop length] in *. rewrite Hrow.
    cbn [mbind result_bind]. rewrite bool_decide_eq_false_2 by lia.
    replace (Z.of_nat (length collected) + 1)%Z
      with (Z.of_nat (length (collected ++ [a])))
      by (rewrite length_app; cbn [length]; lia).
    apply IH. rewrite length_app. cbn [length]. lia.
Qed.

(** X10. If the rows up to the cap (the first [max_articles] rows, one
    row when [max_articles] is below one) all parse, [return_articles]
    returns their records in page order.  The rows behind the cap are not
    looked at, well-formed or not. *)
Theorem return_articles_prefix (rows : list Row) (generate_summaries : bool)
    (max_articles : Z) (parsed : list Article) :
  Forall2 (λ row a, parse_row new_Article row generate_summaries = Ok a)
    (take (Z.to_nat (Z.max 1 max_articles)) rows) parsed →
  return_articles new_Article rows generate_summaries max_articles
  = Ok parsed.
Proof.
  intros Hparsed. unfold return_articles.
  apply (listing_loop_prefix rows generate_summaries max_articles [] parsed).
  cbn [length Z.of_nat]. by rewrite Z.sub_0_r.
Qed.

(** X11. A row that does not parse, with all rows before it well-formed
    and fewer of them than the cap, makes [return_articles] raise that
    row's exception: the records of the rows before it are not returned. *)
Theorem return_articles_abort (good : list Row) (bad : Row)
    (rest : list Row) (generate_summaries : bool) (max_articles : Z)
    (parsed : list Article) (e : exn) :
  Forall2 (λ row a, parse_row new_Article row generate_summaries = Ok a)
    good parsed →
  parse_row new_Article bad generate_summaries = Raise e →
  length good < Z.to_nat (Z.max 1 max_articles) →
  return_articles new_Article (good ++ bad :: rest) generate_summaries
    max_articles = Raise e.
Proof.
  intros Hgood Hbad Hcap. unfold return_articles.
  apply (listing_loop_abort good bad rest _ _ [] parsed); [done|done|].
  cbn [length Z.of_nat]. by rewrite Z.sub_0_r.
Qed.

End listing_parser_rows.

Lemma return_articles_prefix_witness :
  let rows := [listing_row "1"; listing_row "2"; job_row "3"] in
  let parsed :=
    [plain_Article "1" "Show HN: a feed of summaries"
       "https://example.com/post" "120 points" "pg" "1"
       "2024-01-15T08:00:00" true;
     plain_Article "1" "Show HN: a feed of summaries"
       "https://example.com/post" "120 points" "pg" "2"
       "2024-01-15T08:00:00" true] in
  Forall2 (λ row a, parse_row plain_Article row true = Ok a)
    (take (Z.to_nat (Z.max 1 2)) rows) parsed
  ∧ return_articles plain_Article rows true 2 = Ok parsed.
Proof.
  intros rows parsed.
  assert (Hparsed : Forall2 (λ row a, parse_row plain_Article row true = Ok a)
                      (take (Z.to_nat (Z.max 1 2)) rows) parsed)
    by (repeat constructor).
  split; [exact Hparsed|].
  exact (return_articles_prefix plain_Article rows true 2 parsed Hparsed).
Defined.

Lemma return_articles_abort_witness :
  let parsed :=
    [plain_Article "1" "Show HN: a feed of summaries"
       "https://example.com/post" "120 points" "pg" "1"
       "2024-01-15T08:00:00" true] in
  Forall2 (λ row a, parse_row plain_Article row true = Ok a)
    [listing_row "1"] parsed
  ∧ parse_row plain_Article (job_row "2") true = Raise AttributeError
  ∧ length [listing_row "1"] < Z.to_nat (Z.max 1 30)
  ∧ return_articles plain_Article
      ([listing_row "1"] ++ job_row "2" :: [listing_row "3"]) true 30
    = Raise AttributeError.
Proof.
  intros parsed.
  assert (Hgood : Forall2 (λ row a, parse_row plain_Article row true = Ok a)
                    [listing_row "1"] parsed) by (repeat constructor).
  assert (Hbad : parse_row plain_Article (job_row "2") true
                 = Raise AttributeError) by reflexivity.
  assert (Hcap : length [listing_row "1"] < Z.to_nat (Z.max 1 30))
    by (vm_compute; lia).
  split_and!; [exact Hgood | exact Hbad | exact Hcap |].
  exact (return_articles_abort plain_Article [listing_row "1"] (job_row "2")
           [listing_row "3"] true 30 parsed AttributeError Hgood Hbad Hcap).
Defined.

(** ** Date resolution, continued *)

(** X12. What [get_date] can answer.  A stored override that is truthy is
    returned as it is, of whatever JSON type.  Every value returned is
    truthy (never the empty string): it is the stored override or the
    formatted previous day.  The only exception is [OverflowError], and
    only when nothing truthy is stored and the clock reads the first day
    of year 1. *)
Theorem get_date_outcome (settings : gmap string json) (now : datetime) :
  (∀ v, settings !! "override_date" = Some v → truthy v = true →
        get_date settings now = Ok v)
  ∧ (∀ v, get_date settings now = Ok v →
          truthy v = true
          ∧ (settings !! "override_date" = Some v
             ∨ ∃ yesterday, minus_one_day now = Ok yesterday
                            ∧ v = JStr (strftime_Ymd yesterday)))
  ∧ (∀ e, get_date settings now = Raise e →
          e = OverflowError
          ∧ (day now ≤ 1 ∧ month now ≤ 1 ∧ year now ≤ 1)%Z
          ∧ ∀ v, settings !! "override_date" = Some v → truthy v = false).
Proof.
  rewrite get_date_eq. split_and!.
  - intros v Hs Hv. by rewrite Hs, Hv.
  - intros v.
    destruct (settings !! "override_date") as [w|] eqn:Hw;
      [destruct (truthy w) eqn:Htw|].
    + intros [= ->]. split; [done|by left].
    + destruct (minus_one_day now) as [y|] eqn:Hy; [|done].
      intros [= <-]. split; [done|]. right. by exists y.
    + destruct (minus_one_day now) as [y|] eqn:Hy; [|done].
      intros [= <-]. split; [done|]. right. by exists y.
  - intros e.
    assert (Hstep : ∀ e, (yesterday ← minus_one_day now;
                          Ok (JStr (strftime_Ymd yesterday))) = Raise e →
                    e = OverflowError
                    ∧ (day now ≤ 1 ∧ month now ≤ 1 ∧ year now ≤ 1)%Z).
    { intros e'. unfold minus_one_day.
      destruct (Z.ltb_spec 1 (day now)); [done|].
      destruct (Z.ltb_spec 1 (month now)); [done|].
      destruct (Z.ltb_spec 1 (year now)); [done|].
      intros [= <-]. done. }
    destruct (settings !! "override_date") as [w|] eqn:Hw;
      [destruct (truthy w) eqn:Htw|]; [done| |].
    + intros [-> ?]%Hstep. split; [done|split; [done|]]. by intros v [= <-].
    + intros [-> ?]%Hstep. split; [done|split; [done|]]. by intros v [=].
Qed.

(** ** The text logger *)

Section text_logger_facts.

Variable str_Article : Article → string.
Variable strptime_ok : string → bool.








End text_logger_facts.


